(** * Personal notes manager: the in-memory note repository

    A shallow embedding of [notes_backend/src/api/models.py],
    [dependencies.py] and the handlers of [routers/notes.py], followed by
    the properties of the repository contract and of the handlers.

    Python hands out references to mutable [Note] objects, so the model
    keeps an object store next to the repository's own fields: a note is
    reached through its address, and two holders of one address see each
    other's writes. *)

From Stdlib Require Import Sorted.
From stdpp Require Import base numbers strings option list.

Local Open Scope Z_scope.

(** ** Data model *)

(** [time.time()] yields the wall clock as a float of epoch seconds. The
    code only stores and returns these readings and the contract only
    compares them, so a reading is an integer number of clock ticks. *)
Abbreviation timestamp := Z (only parsing).

(** Address of a [Note] object in the object store. *)
Abbreviation ref := nat (only parsing).

(** [@dataclass class Note]. Python integers are unbounded. *)
Record Note := mkNote {
  id : Z;
  title : string;
  content : string;
  owner_id : string;
  created_at : timestamp;
  updated_at : timestamp
}.

(** The fields [owner_id], [title] and [content], for use where a
    parameter of the same name hides the projection. *)
Definition Note_owner_id : Note → string := owner_id.
Definition Note_title : Note → string := title.
Definition Note_content : Note → string := content.

(** Attribute assignments [note.title = v], [note.content = v],
    [note.updated_at = v]. *)
Definition set_title (v : string) (n : Note) : Note :=
  mkNote (id n) v (content n) (owner_id n) (created_at n) (updated_at n).

Definition set_content (v : string) (n : Note) : Note :=
  mkNote (id n) (title n) v (owner_id n) (created_at n) (updated_at n).

Definition set_updated_at (v : timestamp) (n : Note) : Note :=
  mkNote (id n) (title n) (content n) (owner_id n) (created_at n) v.

(** ** Python's [dict] with integer keys

    A [dict] keeps its entries in insertion order: assigning to a key that
    is present replaces the value where it stands, assigning to a new key
    appends. *)
Module dict.
Section ops.
Context {V : Type}.

(** [d.get(k)] *)
Fixpoint get (k : Z) (d : list (Z * V)) : option V :=
  match d with
  | [] => None
  | (k', v) :: d' => if Z.eqb k' k then Some v else get k d'
  end.

(** [d[k] = v] *)
Fixpoint set (k : Z) (v : V) (d : list (Z * V)) : list (Z * V) :=
  match d with
  | [] => [(k, v)]
  | (k', v') :: d' =>
      if Z.eqb k' k then (k, v) :: d' else (k', v') :: set k v d'
  end.

(** The entries left once key [k] is gone. The keys of a [dict] are
    distinct, so at most one entry goes. *)
Definition remove (k : Z) (d : list (Z * V)) : list (Z * V) :=
  filter (λ e, e.1 ≠ k) d.

(** [d.pop(k, None)]: the value under [k], if any, and the dict without
    that key. *)
Definition pop (k : Z) (d : list (Z * V)) : option V * list (Z * V) :=
  (get k d, remove k d).

(** [d.keys()] and [d.values()] *)
Definition keys (d : list (Z * V)) : list Z := d.*1.
Definition values (d : list (Z * V)) : list V := d.*2.
End ops.
End dict.

(** ** Program state

    [heap] is the object store: the [Note] objects allocated so far, by
    address. [_notes] and [_next_id] are the fields of the repository
    instance; [_notes] maps an identifier to the address of its note.

    Every public method runs its whole body under [self._lock], so a
    method is one atomic transition of this state. The lock is an [RLock]:
    the nested acquisition by [_generate_id] inside [create] succeeds. *)
Record World := mkWorld {
  heap : list Note;
  _notes : list (Z * ref);
  _next_id : Z
}.

(** [Note(...)]: a new object at a fresh address. *)
Definition alloc (n : Note) (w : World) : ref * World :=
  (length (heap w), mkWorld (heap w ++ [n]) (_notes w) (_next_id w)).

(** An attribute write through a reference: whoever holds [r] may do it. *)
Definition setattr (r : ref) (f : Note → Note) (w : World) : World :=
  mkWorld (alter f r (heap w)) (_notes w) (_next_id w).

(** An attribute read through a reference, [note.f]. A Python reference
    always designates a live object; the [None] case is an address that
    was never allocated, which no run of the program produces
    (see [reachable_wf]). *)
Definition getattr {A : Type} (f : Note → A) (r : ref) (w : World) : option A :=
  f <$> heap w !! r.

(** ** [class InMemoryNoteRepository] *)
Module InMemoryNoteRepository.

Definition __init__ : World := mkWorld [] [] 1.

Definition _generate_id (w : World) : Z * World :=
  let nid := _next_id w in
  (nid, mkWorld (heap w) (_notes w) (_next_id w + 1)).

(** [now] is the value [time.time()] returns inside the call. *)
Definition create (title content owner_id : string) (now : timestamp)
    (w : World) : ref * World :=
  let '(nid, w) := _generate_id w in
  let '(note, w) := alloc (mkNote nid title content owner_id now now) w in
  (note, mkWorld (heap w) (dict.set nid note (_notes w)) (_next_id w)).

(** The result is a list built by the call; its elements are the
    addresses that [_notes] holds. *)
Definition list_all (owner_id : option string) (w : World) : list ref :=
  let items := dict.values (_notes w) in
  let items :=
    match owner_id with
    | Some o => filter (λ n, getattr Note_owner_id n w = Some o) items
    | None => items
    end in
  items.

Definition get (note_id : Z) (w : World) : option ref :=
  dict.get note_id (_notes w).

Definition update (note_id : Z) (title content : option string)
    (now : timestamp) (w : World) : option ref * World :=
  match dict.get note_id (_notes w) with
  | None => (None, w)
  | Some note =>
      let w := match title with
               | Some t => setattr note (set_title t) w
               | None => w
               end in
      let w := match content with
               | Some c => setattr note (set_content c) w
               | None => w
               end in
      let w := setattr note (set_updated_at now) w in
      (Some note, w)
  end.

Definition delete (note_id : Z) (w : World) : bool * World :=
  let '(popped, d) := dict.pop note_id (_notes w) in
  (bool_decide (is_Some popped), mkWorld (heap w) d (_next_id w)).

End InMemoryNoteRepository.

(** ** Calls on the repository and their traces *)

Inductive call :=
| Create (title content owner_id : string)
| ListAll (owner_id : option string)
| Get (note_id : Z)
| Update (note_id : Z) (title content : option string)
| Delete (note_id : Z).

Inductive result :=
| RetNote (note : ref)
| RetOptional (note : option ref)
| RetList (notes : list ref)
| RetBool (b : bool).

(** One call, made when the clock reads [now]. *)
Definition step (now : timestamp) (c : call) (w : World) : result * World :=
  match c with
  | Create t c o =>
      let '(r, w') := InMemoryNoteRepository.create t c o now w in (RetNote r, w')
  | ListAll o => (RetList (InMemoryNoteRepository.list_all o w), w)
  | Get i => (RetOptional (InMemoryNoteRepository.get i w), w)
  | Update i t c =>
      let '(r, w') := InMemoryNoteRepository.update i t c now w in (RetOptional r, w')
  | Delete i =>
      let '(b, w') := InMemoryNoteRepository.delete i w in (RetBool b, w')
  end.

(** The state after a sequence of timed calls. *)
Fixpoint run (cs : list (timestamp * call)) (w : World) : World :=
  match cs with
  | [] => w
  | (now, c) :: cs' => run cs' (step now c w).2
  end.

(** The identifiers that the [create] calls of a sequence hand back, in
    call order: the [id] field of each returned note, read when the call
    returns. *)
Fixpoint created_ids (cs : list (timestamp * call)) (w : World) : list Z :=
  match cs with
  | [] => []
  | (now, c) :: cs' =>
      let '(res, w') := step now c w in
      match c, res with
      | Create _ _ _, RetNote r =>
          option_list (getattr id r w') ++ created_ids cs' w'
      | _, _ => created_ids cs' w'
      end
  end.

Definition is_create (c : call) : bool :=
  match c with Create _ _ _ => true | _ => false end.

(** The states a repository can be in: built by [__init__] and changed
    only by its methods, whatever the wall clock reads at each call. *)
Inductive reachable : World → Prop :=
| reachable_init : reachable InMemoryNoteRepository.__init__
| reachable_step w now c : reachable w → reachable (step now c w).2.

(** Those of them that are reached while the wall clock is never set
    back: each call reads a value that is not below the one read by the
    call before. [reachable_in_order t w] carries the latest reading [t]. *)
Inductive reachable_in_order : timestamp → World → Prop :=
| in_order_init t : reachable_in_order t InMemoryNoteRepository.__init__
| in_order_step t w now c :
    reachable_in_order t w → t ≤ now →
    reachable_in_order now (step now c w).2.

(** The readings of a sequence of timed calls never decrease, starting
    from [t]. *)
Fixpoint clock_ok (t : timestamp) (cs : list (timestamp * call)) : Prop :=
  match cs with
  | [] => True
  | (now, _) :: cs' => t ≤ now ∧ clock_ok now cs'
  end.

(** The last reading of a sequence, [t] if it is empty. *)
Definition last_reading (t : timestamp) (cs : list (timestamp * call)) : timestamp :=
  foldl (λ _ e, e.1) t cs.

(** The stored notes as values: what a reader finds under each key. *)
Definition stored (w : World) : list (Z * option Note) :=
  (λ e, (e.1, heap w !! e.2)) <$> _notes w.

(** ** [dependencies.py] *)

(** Truthiness of an [Optional[str]]: [None] and the empty string are
    falsy. *)
Definition truthy (x : option string) : bool :=
  match x with
  | None => false
  | Some s => negb (String.eqb s EmptyString)
  end.

(** [x_user_id or "anonymous"] *)
Definition get_current_user (x_user_id : option string) : string :=
  match x_user_id with
  | Some s => if truthy x_user_id then s else "anonymous"
  | None => "anonymous"
  end.

(** [require_auth] receives [get_current_user]'s result as [user_id]. *)
Definition require_auth (user_id : string) : string := user_id.

(** ** [routers/notes.py]: the update handler *)

(** [NoteOut], the response schema: a value built from the fields. *)
Record NoteOut := mkNoteOut {
  out_id : Z;
  out_title : string;
  out_content : string;
  out_owner_id : string;
  out_created_at : timestamp;
  out_updated_at : timestamp
}.

Definition _to_note_out (note : Note) : NoteOut :=
  mkNoteOut (id note) (title note) (content note) (owner_id note)
    (created_at note) (updated_at note).

(** [NoteUpdate], after validation. *)
Record NoteUpdate := mkNoteUpdate {
  payload_title : option string;
  payload_content : option string
}.

Inductive response :=
| Ok (status : Z) (body : NoteOut)
| HTTPException (status_code : Z) (detail : string).

Definition HTTP_200_OK := 200.
Definition HTTP_400_BAD_REQUEST := 400.
Definition HTTP_404_NOT_FOUND := 404.

(** The result is [None] only if the repository hands back an address
    that holds no object. *)
Definition update_note (payload : NoteUpdate) (note_id : Z) (user_id : string)
    (now : timestamp) (w : World) : option response * World :=
  if bool_decide (payload_title payload = None ∧ payload_content payload = None)
  then (Some (HTTPException HTTP_400_BAD_REQUEST "No fields to update"), w)
  else
    let '(note, w') :=
      InMemoryNoteRepository.update note_id (payload_title payload)
        (payload_content payload) now w in
    match note with
    | None => (Some (HTTPException HTTP_404_NOT_FOUND "Note not found"), w')
    | Some r => (Ok HTTP_200_OK <$> getattr _to_note_out r w', w')
    end.

(** ** [routers/notes.py]: the other handlers

    Each handler is called with the [user_id] that the dependencies
    resolve and, where the route has one, with the [note_id] of the path
    ([Path(..., ge=1)]: the framework lets only identifiers from 1 up
    through; the handlers themselves accept any integer). *)

(** [Depends(require_auth)], which in turn is [Depends(get_current_user)]
    on the [X-User-Id] header. *)
Definition injected_user_id (x_user_id : option string) : string :=
  require_auth (get_current_user x_user_id).

(** [NoteCreate], after validation. *)
Record NoteCreate := mkNoteCreate {
  new_title : string;
  new_content : string
}.

Definition HTTP_201_CREATED := 201.
Definition HTTP_204_NO_CONTENT := 204.

(** A handler whose body on success is an [A]: it returns, and the
    route's status code goes out with the body, or it raises
    [HTTPException]. *)
Inductive outcome (A : Type) :=
| Returns (status : Z) (body : A)
| Raises (status_code : Z) (detail : string).
Arguments Returns {A} status body.
Arguments Raises {A} status_code detail.

(** As for [update_note], [None] stands for an address without object. *)
Definition create_note (payload : NoteCreate) (user_id : string)
    (now : timestamp) (w : World) : option response * World :=
  let '(note, w') :=
    InMemoryNoteRepository.create (new_title payload) (new_content payload)
      user_id now w in
  (Ok HTTP_201_CREATED <$> getattr _to_note_out note w', w').

Definition list_notes (user_id : string) (w : World)
    : option (outcome (list NoteOut)) :=
  let notes := InMemoryNoteRepository.list_all (Some user_id) w in
  Returns HTTP_200_OK <$> mapM (λ n, getattr _to_note_out n w) notes.

Definition get_note (note_id : Z) (user_id : string) (w : World)
    : option response :=
  match InMemoryNoteRepository.get note_id w with
  | None => Some (HTTPException HTTP_404_NOT_FOUND "Note not found")
  | Some note => Ok HTTP_200_OK <$> getattr _to_note_out note w
  end.

Definition delete_note (note_id : Z) (user_id : string) (w : World)
    : outcome unit * World :=
  let '(deleted, w') := InMemoryNoteRepository.delete note_id w in
  if negb deleted
  then (Raises HTTP_404_NOT_FOUND "Note not found", w')
  else (Returns HTTP_204_NO_CONTENT (), w').

(** ** Observations on a state *)

(** The [id] fields of the notes that [list_all] hands back, in the order
    of the list. *)
Definition listed_ids (owner_id : option string) (w : World) : list Z :=
  omap (λ n, getattr id n w) (InMemoryNoteRepository.list_all owner_id w).

(** The same notes as response bodies, [[_to_note_out(n) for n in notes]]. *)
Definition listed_notes (owner_id : option string) (w : World) : list NoteOut :=
  omap (λ n, getattr _to_note_out n w) (InMemoryNoteRepository.list_all owner_id w).

(** The number of [create] calls in a sequence. *)
Definition creates (cs : list (timestamp * call)) : nat :=
  length (filter (λ e, is_create e.2) cs).

(** The entries of [_notes] stand in increasing key order. *)
Definition ordered (w : World) : Prop :=
  StronglySorted Z.lt (dict.keys (_notes w)).

(** The fields that no method assigns after construction. *)
Definition same_identity (n n' : Note) : Prop :=
  id n' = id n ∧ owner_id n' = owner_id n ∧ created_at n' = created_at n.

(** ** Invariants of the reachable states *)

(** Keys are distinct and below the counter, every key has an object of
    its own, and that object carries the key as its [id]. *)
Record wf (w : World) : Prop := mkWf {
  wf_keys : NoDup (dict.keys (_notes w));
  wf_refs : NoDup (dict.values (_notes w));
  wf_below : ∀ k r, (k, r) ∈ _notes w → k < _next_id w;
  wf_live : ∀ k r, (k, r) ∈ _notes w → ∃ n, heap w !! r = Some n ∧ id n = k
}.

(** Every stored note was stamped in order, no later than [t]. *)
Definition stamped (t : timestamp) (w : World) : Prop :=
  ∀ k r n, (k, r) ∈ _notes w → heap w !! r = Some n →
    created_at n ≤ updated_at n ∧ updated_at n ≤ t.

(** The net effect of a successful [update] on the note it finds. *)
Definition updated (title content : option string) (now : timestamp)
    (n : Note) : Note :=
  mkNote (id n) (default (Note_title n) title)
    (default (Note_content n) content) (owner_id n) (created_at n) now.

(** "Every read returns an independent copy": no attribute write through
    a reference the repository has handed out changes what is stored. *)
Definition independent_copies (w : World) : Prop :=
  ∀ k r f, InMemoryNoteRepository.get k w = Some r →
    stored (setattr r f w) = stored w.


(** * Properties *)

(** ** The dictionary *)

Section dict_facts.
Context {V : Type}.
Implicit Types (k : Z) (v : V) (d : list (Z * V)).

Lemma dict_get_set_eq k v d : dict.get k (dict.set k v d) = Some v.
Proof.
  induction d as [|[k' v'] d IH]; simpl.
  - by rewrite Z.eqb_refl.
  - destruct (Z.eqb_spec k' k) as [->|Hne]; simpl.
    + by rewrite Z.eqb_refl.
    + by destruct (Z.eqb_spec k' k).
Qed.

Lemma dict_get_Some_elem k v d : dict.get k d = Some v → (k, v) ∈ d.
Proof.
  induction d as [|[k' v'] d IH]; simpl; [done|].
  destruct (Z.eqb_spec k' k) as [->|Hne].
  - intros [= ->]. left.
  - intros H. right. by apply IH.
Qed.

Lemma dict_get_None k d : dict.get k d = None ↔ k ∉ dict.keys d.
Proof.
  unfold dict.keys. induction d as [|[k' v'] d IH]; simpl.
  - split; [intros _; apply not_elem_of_nil | done].
  - rewrite not_elem_of_cons. destruct (Z.eqb_spec k' k) as [->|Hne].
    + split; [done | by intros [? _]].
    + rewrite IH. split; [by intros ?; split | by intros [_ ?]].
Qed.

Lemma dict_elem_get k v d :
  NoDup (dict.keys d) → (k, v) ∈ d → dict.get k d = Some v.
Proof.
  unfold dict.keys. induction d as [|[k' v'] d IH]; simpl.
  - intros _ H. by apply elem_of_nil in H.
  - intros [Hk Hd]%NoDup_cons [[= -> ->]|Hin]%elem_of_cons.
    + by rewrite Z.eqb_refl.
    + destruct (Z.eqb_spec k' k) as [->|Hne]; [|by apply IH].
      exfalso. apply Hk. apply list_elem_of_fmap. by exists (k, v).
Qed.

Lemma dict_remove_absent k d : dict.get k d = None → dict.remove k d = d.
Proof.
  unfold dict.remove. induction d as [|[k' v'] d IH]; simpl; [done|].
  destruct (Z.eqb_spec k' k) as [->|Hne]; [done|].
  intros H. rewrite filter_cons_True by done. by rewrite IH.
Qed.

Lemma dict_get_remove_eq k d : dict.get k (dict.remove k d) = None.
Proof.
  apply dict_get_None. unfold dict.keys, dict.remove.
  intros ([k' v] & -> & [Hne _]%list_elem_of_filter)%list_elem_of_fmap.
  by apply Hne.
Qed.

Lemma dict_set_fresh k v d :
  dict.get k d = None → dict.set k v d = d ++ [(k, v)].
Proof.
  induction d as [|[k' v'] d IH]; simpl; [done|].
  destruct (Z.eqb_spec k' k) as [->|Hne]; [done|].
  intros H. by rewrite IH.
Qed.

Lemma dict_elem_remove k e d : e ∈ dict.remove k d ↔ e.1 ≠ k ∧ e ∈ d.
Proof. unfold dict.remove. by rewrite list_elem_of_filter. Qed.

End dict_facts.

(** ** The methods, as equations *)

Import InMemoryNoteRepository.

Lemma create_eq t c o now w :
  create t c o now w =
  (length (heap w),
   mkWorld (heap w ++ [mkNote (_next_id w) t c o now now])
     (dict.set (_next_id w) (length (heap w)) (_notes w))
     (_next_id w + 1)).
Proof. reflexivity. Qed.

Lemma update_absent i t c now w :
  get i w = None → update i t c now w = (None, w).
Proof. unfold get, update. by intros ->. Qed.

Lemma update_found i t c now w r :
  get i w = Some r →
  update i t c now w =
  (Some r, mkWorld (alter (updated t c now) r (heap w)) (_notes w) (_next_id w)).
Proof.
  unfold get, update. intros ->. f_equal.
  destruct t as [t|], c as [c|]; unfold setattr; simpl; f_equal;
    rewrite ?list_alter_alter_eq; (apply list_alter_ext; [|done]); by intros [].
Qed.

(** Split on whether [update] finds its note, and rewrite the call. *)
Ltac case_update i w r H :=
  destruct (get i w) as [r|] eqn:H;
  [rewrite (update_found _ _ _ _ _ _ H) | rewrite (update_absent _ _ _ _ _ H)].

Lemma delete_eq i w :
  delete i w =
  (bool_decide (is_Some (get i w)),
   mkWorld (heap w) (dict.remove i (_notes w)) (_next_id w)).
Proof. reflexivity. Qed.

(** ** Reachable states are well formed *)

Lemma wf_init : wf __init__.
Proof.
  split; simpl; try apply NoDup_nil_2;
    intros k r H; by apply elem_of_nil in H.
Qed.

Lemma wf_fresh_key w : wf w → dict.get (_next_id w) (_notes w) = None.
Proof.
  intros Hw. apply dict_get_None. unfold dict.keys.
  intros ([k r] & Heq & Hin)%list_elem_of_fmap.
  apply (wf_below _ Hw) in Hin. simpl in Heq. lia.
Qed.

Lemma wf_ref_lt w k r : wf w → (k, r) ∈ _notes w → (r < length (heap w))%nat.
Proof.
  intros Hw Hin. destruct (wf_live _ Hw _ _ Hin) as (n & Hn & _).
  by apply lookup_lt_Some in Hn.
Qed.

Lemma wf_create t c o now w : wf w → wf (create t c o now w).2.
Proof.
  intros Hw. rewrite create_eq. simpl.
  pose proof (wf_fresh_key _ Hw) as Hfresh.
  rewrite (dict_set_fresh _ _ _ Hfresh).
  split; simpl.
  - unfold dict.keys. rewrite fmap_app. simpl.
    apply NoDup_app. split; [apply (wf_keys _ Hw)|]. split.
    + intros k Hk [->|[]%elem_of_nil]%elem_of_cons.
      by apply dict_get_None in Hfresh.
    + apply NoDup_singleton.
  - unfold dict.values. rewrite fmap_app. simpl.
    apply NoDup_app. split; [apply (wf_refs _ Hw)|]. split.
    + intros r ([k r'] & -> & Hin)%list_elem_of_fmap
        [Heq|[]%elem_of_nil]%elem_of_cons.
      apply (wf_ref_lt _ _ _ Hw) in Hin. simpl in Heq. lia.
    + apply NoDup_singleton.
  - intros k r [Hin|[= -> ->]%list_elem_of_singleton]%elem_of_app; [|lia].
    apply (wf_below _ Hw) in Hin. lia.
  - intros k r [Hin|[= -> ->]%list_elem_of_singleton]%elem_of_app.
    + destruct (wf_live _ Hw _ _ Hin) as (n & Hn & Hid).
      exists n. split; [|done]. by apply lookup_app_l_Some.
    + exists (mkNote (_next_id w) t c o now now).
      split; [|done]. by apply list_lookup_middle.
Qed.

Lemma wf_update i t c now w : wf w → wf (update i t c now w).2.
Proof.
  intros Hw. case_update i w r Hget.
  - simpl. split; simpl; [apply Hw..|].
    intros k r' Hin. destruct (wf_live _ Hw _ _ Hin) as (n & Hn & Hid).
    destruct (decide (r' = r)) as [->|Hne].
    + exists (updated t c now n). split; [|done].
      by rewrite list_lookup_alter_eq, Hn.
    + exists n. split; [|done]. by rewrite list_lookup_alter_ne.
  - done.
Qed.

Lemma wf_delete i w : wf w → wf (delete i w).2.
Proof.
  intros Hw. rewrite delete_eq. simpl. split; simpl.
  - unfold dict.keys, dict.remove. eapply sublist_NoDup; [apply (wf_keys _ Hw)|].
    apply fmap_sublist, sublist_filter.
  - unfold dict.values, dict.remove. eapply sublist_NoDup; [apply (wf_refs _ Hw)|].
    apply fmap_sublist, sublist_filter.
  - intros k r [_ Hin]%dict_elem_remove. by apply (wf_below _ Hw) in Hin.
  - intros k r [_ Hin]%dict_elem_remove. by apply (wf_live _ Hw) in Hin.
Qed.

Lemma wf_step now c w : wf w → wf (step now c w).2.
Proof.
  intros Hw. destruct c as [t c o|o|i|i t c|i]; simpl; try done.
  - by apply wf_create.
  - pose proof (wf_update i t c now w Hw) as H.
    by destruct (update i t c now w).
  - by apply wf_delete.
Qed.

Lemma reachable_wf w : reachable w → wf w.
Proof.
  induction 1 as [|w now c _ IH]; [apply wf_init | by apply wf_step].
Qed.

Lemma in_order_reachable t w : reachable_in_order t w → reachable w.
Proof.
  induction 1 as [t|t w now c _ IH _]; [apply reachable_init|].
  by apply reachable_step.
Qed.

(** ** States reached in clock order are stamped in order *)

Lemma stamped_init t : stamped t __init__.
Proof. intros k r n H. by apply elem_of_nil in H. Qed.

Lemma stamped_mono t t' w : stamped t w → t ≤ t' → stamped t' w.
Proof.
  intros Hs Hle k r n Hin Hn. destruct (Hs k r n Hin Hn). lia.
Qed.

Lemma stamped_create t now ti c o w :
  wf w → stamped t w → t ≤ now → stamped now (create ti c o now w).2.
Proof.
  intros Hw Hs Hle. rewrite create_eq. simpl.
  rewrite (dict_set_fresh _ _ _ (wf_fresh_key _ Hw)).
  intros k r n [Hin|[= -> ->]%list_elem_of_singleton]%elem_of_app; simpl.
  - rewrite lookup_app_l by (by eapply wf_ref_lt).
    intros Hn. destruct (Hs k r n Hin Hn). lia.
  - rewrite list_lookup_middle by done. intros [= <-]. simpl. lia.
Qed.

Lemma stamped_update t now i ti c w :
  stamped t w → t ≤ now → stamped now (update i ti c now w).2.
Proof.
  intros Hs Hle. case_update i w r Hget.
  - simpl. intros k r' n' Hin. simpl. destruct (decide (r = r')) as [<-|Hne].
    + rewrite list_lookup_alter_eq.
      destruct (heap w !! r) as [n|] eqn:Hn; [|done].
      intros [= <-]. simpl. destruct (Hs k r n Hin Hn). lia.
    + rewrite list_lookup_alter_ne by done.
      intros Hn. destruct (Hs k r' n' Hin Hn). lia.
  - by apply (stamped_mono t).
Qed.

Lemma stamped_delete t i w : stamped t w → stamped t (delete i w).2.
Proof.
  intros Hs k r n [_ Hin]%dict_elem_remove Hn. exact (Hs k r n Hin Hn).
Qed.

Lemma stamped_step t now c w :
  wf w → stamped t w → t ≤ now → stamped now (step now c w).2.
Proof.
  intros Hw Hs Hle. destruct c as [ti c o|o|i|i ti c|i]; simpl.
  - by apply (stamped_create t).
  - by apply (stamped_mono t).
  - by apply (stamped_mono t).
  - pose proof (stamped_update t now i ti c w Hs Hle) as H.
    by destruct (update i ti c now w).
  - apply (stamped_mono t); [|done]. by apply stamped_delete.
Qed.

Lemma in_order_stamped t w : reachable_in_order t w → stamped t w.
Proof.
  induction 1 as [t|t w now c Hr IH Hle]; [apply stamped_init|].
  apply (stamped_step t); [|done|done].
  by eapply reachable_wf, in_order_reachable.
Qed.

(** Running a sequence of calls keeps a repository among the reachable
    states, and among those reached in clock order if the readings of
    the sequence never decrease. *)
Lemma reachable_run w cs : reachable w → reachable (run cs w).
Proof.
  revert w. induction cs as [|[now c] cs IH]; intros w Hr; [done|].
  apply IH. by apply reachable_step.
Qed.

Lemma in_order_run t w cs :
  reachable_in_order t w → clock_ok t cs →
  reachable_in_order (last_reading t cs) (run cs w).
Proof.
  revert t w. induction cs as [|[now c] cs IH]; intros t w Hr Hc; [done|].
  destruct Hc as [Hle Hc]. apply (IH now); [|done].
  by apply (in_order_step t).
Qed.

(** ** Identifier allocation *)

Lemma next_id_step now c w :
  _next_id (step now c w).2 = _next_id w + (if is_create c then 1 else 0).
Proof.
  destruct c as [ti c o|o|i|i ti c|i]; simpl; try lia.
  case_update i w r Hget; simpl; lia.
Qed.

Lemma created_ids_cons now c cs w :
  created_ids ((now, c) :: cs) w =
  (if is_create c then [_next_id w] else []) ++ created_ids cs (step now c w).2.
Proof.
  destruct c as [ti c o|o|i|i ti c|i]; simpl; try done.
  - unfold getattr. simpl. by rewrite list_lookup_middle.
  - by destruct (update i ti c now w).
Qed.

Lemma created_ids_lower cs w : Forall (λ i, _next_id w ≤ i) (created_ids cs w).
Proof.
  revert w. induction cs as [|[now c] cs IH]; intros w; [constructor|].
  rewrite created_ids_cons. apply Forall_app. split.
  - destruct (is_create c); repeat constructor. lia.
  - eapply Forall_impl; [apply IH|]. intros i Hi. simpl in Hi.
    rewrite next_id_step in Hi. destruct (is_create c); lia.
Qed.

Lemma created_ids_sorted cs w : StronglySorted Z.lt (created_ids cs w).
Proof.
  revert w. induction cs as [|[now c] cs IH]; intros w; [constructor|].
  rewrite created_ids_cons. destruct (is_create c) eqn:Hc; simpl; [|apply IH].
  constructor; [apply IH|].
  eapply Forall_impl; [apply created_ids_lower|]. intros i Hi. simpl in Hi.
  rewrite next_id_step, Hc in Hi. lia.
Qed.

Lemma created_ids_length cs w :
  length (created_ids cs w) = length (filter (λ e, is_create e.2) cs).
Proof.
  revert w. induction cs as [|[now c] cs IH]; intros w; [done|].
  rewrite created_ids_cons, length_app, IH, filter_cons. simpl.
  by destruct (is_create c).
Qed.

Lemma StronglySorted_lt_NoDup (l : list Z) : StronglySorted Z.lt l → NoDup l.
Proof.
  induction 1 as [|x l _ IH Hall]; constructor; [|done].
  intros Hin. rewrite Forall_forall in Hall. specialize (Hall _ Hin). lia.
Qed.

(** C1. Over any sequence of calls on a repository, whatever its state at
    the start, the identifiers handed back by the [create] calls are
    strictly increasing, hence never repeated, whichever [delete] (or
    other) calls come in between; each [create] hands one back, and none
    is an identifier issued before the sequence started. *)
Theorem create_ids_strictly_increasing (cs : list (timestamp * call)) (w : World) :
  StronglySorted Z.lt (created_ids cs w) ∧
  NoDup (created_ids cs w) ∧
  length (created_ids cs w) = length (filter (λ e, is_create e.2) cs) ∧
  Forall (λ i, _next_id w ≤ i) (created_ids cs w).
Proof.
  split_and!.
  - apply created_ids_sorted.
  - apply StronglySorted_lt_NoDup, created_ids_sorted.
  - apply created_ids_length.
  - apply created_ids_lower.
Qed.

(** ** What the methods hand back *)

Lemma dict_values_inj {V : Type} (d : list (Z * V)) k1 k2 v :
  NoDup (dict.values d) → (k1, v) ∈ d → (k2, v) ∈ d → k1 = k2.
Proof.
  unfold dict.values. induction d as [|[k' v'] d IH]; simpl.
  - intros _ H. by apply elem_of_nil in H.
  - intros [Hv Hd]%NoDup_cons H1 H2.
    assert (∀ k, (k, v') ∈ d → False) as Hno.
    { intros k Hk. apply Hv. apply list_elem_of_fmap. by exists (k, v'). }
    apply elem_of_cons in H1 as [[= -> ->]|H1];
      apply elem_of_cons in H2 as [[= ->]|H2]; subst;
      try done; try (exfalso; by eauto).
    by apply IH.
Qed.

Lemma get_list_all k r w : get k w = Some r → r ∈ list_all None w.
Proof.
  intros H%dict_get_Some_elem. simpl. unfold dict.values.
  apply list_elem_of_fmap. by exists (k, r).
Qed.

Lemma get_create ti c o now w :
  get (_next_id w) (create ti c o now w).2 = Some (create ti c o now w).1.
Proof. rewrite create_eq. apply dict_get_set_eq. Qed.

Lemma stored_setattr w k r n f :
  wf w → get k w = Some r → heap w !! r = Some n →
  stored (setattr r f w) =
  (λ e, if decide (e.1 = k) then (k, Some (f n)) else e) <$> stored w.
Proof.
  intros Hw Hget Hn. apply dict_get_Some_elem in Hget as Hin.
  unfold stored, setattr. simpl. rewrite <- list_fmap_compose.
  apply list_fmap_ext. intros i [k' r'] Hi. simpl.
  assert ((k', r') ∈ _notes w) as Hin' by (apply list_elem_of_lookup; eauto).
  destruct (decide (k' = k)) as [->|Hne].
  - pose proof (dict_elem_get _ _ _ (wf_keys _ Hw) Hin') as Hget'.
    unfold get in Hget. rewrite Hget in Hget'. injection Hget' as <-.
    by rewrite list_lookup_alter_eq, Hn.
  - rewrite list_lookup_alter_ne; [done|]. intros <-.
    apply Hne. by apply (dict_values_inj _ _ _ _ (wf_refs _ Hw) Hin' Hin).
Qed.

(** C2. The code does not keep what the claim asks for, and what the
    comment in [list_all] announces (return a copy to avoid external
    mutation): only the list is new. The record that [create] returns,
    and that [get], [update] and [list_all] return again, is the stored
    one, and retitling it retitles the stored note. *)
Lemma returned_record_is_not_a_copy :
  let rw := create "Shopping" "Milk" "alice" 10 __init__ in
  get 1 rw.2 = Some rw.1 ∧
  (update 1 None None 10 rw.2).1 = Some rw.1 ∧
  list_all None rw.2 = [rw.1] ∧
  list_all (Some "alice") rw.2 = [rw.1] ∧
  stored rw.2 = [(1, Some (mkNote 1 "Shopping" "Milk" "alice" 10 10))] ∧
  stored (setattr rw.1 (set_title "Eggs") rw.2) =
    [(1, Some (mkNote 1 "Eggs" "Milk" "alice" 10 10))] ∧
  ¬ independent_copies rw.2.
Proof.
  intros rw. split_and!; try reflexivity.
  intros H. specialize (H 1 rw.1 (set_title "Eggs") eq_refl). discriminate H.
Qed.

(** ** Partial updates *)

(** C3, as the claim words it, fails: the wall clock can be set back,
    and [update] stores what it reads. A note created when the clock
    reads 10 and retitled when it reads 5 ends with an updated_at below
    the one it had. *)
Lemma update_can_set_updated_at_back :
  let w := (step 10 (Create "Shopping" "Milk" "alice") __init__).2 in
  reachable w ∧
  get 1 w = Some 0%nat ∧
  ∃ n n',
    heap w !! 0%nat = Some n ∧
    heap (update 1 (Some "Groceries") None 5 w).2 !! 0%nat = Some n' ∧
    n' = mkNote 1 "Groceries" "Milk" "alice" 10 5 ∧
    ¬ (updated_at n ≤ updated_at n').
Proof.
  intros w. split; [apply reachable_step, reachable_init|].
  split; [reflexivity|].
  exists (mkNote 1 "Shopping" "Milk" "alice" 10 10),
         (mkNote 1 "Groceries" "Milk" "alice" 10 5).
  split_and!; try reflexivity. simpl. lia.
Qed.

(** C3, as the code has it. For a note in the repository, in any state
    and at any clock reading [now], [update(k, title=T)] with no content
    hands back the stored note, whose content, id, owner_id and
    created_at are as before, whose title is [T] and whose updated_at is
    [now], the reading taken in the call; a content-only update likewise
    leaves the title. The new updated_at is not below the prior one when
    the state was reached, and the call is made, without the clock being
    set back. *)
Theorem partial_update_frame (now : timestamp) (w : World) (k : Z) (r : ref)
    (n : Note) (T C : string) :
  get k w = Some r → heap w !! r = Some n →
  (update k (Some T) None now w).1 = Some r ∧
  heap (update k (Some T) None now w).2 !! r =
    Some (mkNote (id n) T (content n) (owner_id n) (created_at n) now) ∧
  (update k None (Some C) now w).1 = Some r ∧
  heap (update k None (Some C) now w).2 !! r =
    Some (mkNote (id n) (title n) C (owner_id n) (created_at n) now) ∧
  (∀ t, reachable_in_order t w → t ≤ now → updated_at n ≤ now).
Proof.
  intros Hget Hn.
  rewrite !(update_found _ _ _ _ _ _ Hget). simpl.
  rewrite !list_lookup_alter_eq, Hn. split_and!; try done.
  intros t Hr Hle. apply dict_get_Some_elem in Hget.
  destruct (in_order_stamped _ _ Hr _ _ _ Hget Hn). lia.
Qed.

Lemma partial_update_frame_witness :
  let w := (step 10 (Create "Shopping" "Milk" "alice") __init__).2 in
  heap (update 1 (Some "Groceries") None 12 w).2 !! 0%nat =
    Some (mkNote 1 "Groceries" "Milk" "alice" 10 12) ∧
  heap (update 1 None (Some "Milk, Eggs") 5 w).2 !! 0%nat =
    Some (mkNote 1 "Shopping" "Milk, Eggs" "alice" 10 5) ∧
  10 ≤ 12.
Proof.
  intros w.
  assert (reachable_in_order 10 w) as Hr.
  { apply (in_order_step 0); [apply in_order_init | lia]. }
  pose proof (partial_update_frame 12 w 1 0%nat
    (mkNote 1 "Shopping" "Milk" "alice" 10 10) "Groceries" "Milk, Eggs"
    eq_refl eq_refl) as (_ & H1 & _ & _ & H3).
  pose proof (partial_update_frame 5 w 1 0%nat
    (mkNote 1 "Shopping" "Milk" "alice" 10 10) "Groceries" "Milk, Eggs"
    eq_refl eq_refl) as (_ & _ & _ & H2 & _).
  exact (conj H1 (conj H2 (H3 10 Hr ltac:(lia)))).
Defined.

(** ** Unknown identifiers *)

Lemma world_eta w : mkWorld (heap w) (_notes w) (_next_id w) = w.
Proof. by destruct w. Qed.

Lemma delete_absent k w : get k w = None → delete k w = (false, w).
Proof.
  intros Hget. rewrite delete_eq, Hget.
  unfold get in Hget. by rewrite (dict_remove_absent _ _ Hget), world_eta.
Qed.

Lemma delete_present k r w : get k w = Some r → (delete k w).1 = true.
Proof.
  intros Hget. by rewrite delete_eq, Hget.
Qed.

Lemma get_delete k w : get k (delete k w).2 = None.
Proof. rewrite delete_eq. apply dict_get_remove_eq. Qed.

(** C4. For an identifier that is not a key of the repository, [get] and
    [update] hand back [None] and [delete] hands back [False]; each is an
    ordinary return, and after each the object store, the notes and the
    counter are what they were. *)
Theorem unknown_id_is_absence (w : World) (k : Z) (ti c : option string)
    (now : timestamp) :
  k ∉ dict.keys (_notes w) →
  get k w = None ∧
  step now (Get k) w = (RetOptional None, w) ∧
  update k ti c now w = (None, w) ∧
  delete k w = (false, w).
Proof.
  intros Hk%dict_get_None. split_and!.
  - done.
  - simpl. unfold get. by rewrite Hk.
  - by apply update_absent.
  - by apply delete_absent.
Qed.

(** A deleted identifier is unknown again. *)
Lemma deleted_id_unknown k w : k ∉ dict.keys (_notes (delete k w).2).
Proof. apply dict_get_None. apply (get_delete k w). Qed.

Lemma unknown_id_is_absence_witness :
  let w := (delete 1 (create "Shopping" "Milk" "alice" 10 __init__).2).2 in
  get 1 w = None ∧
  step 11 (Get 1) w = (RetOptional None, w) ∧
  update 1 (Some "Groceries") None 11 w = (None, w) ∧
  delete 1 w = (false, w).
Proof.
  intros w.
  apply (unknown_id_is_absence w 1 (Some "Groceries") None 11).
  vm_compute. apply not_elem_of_nil.
Defined.

(** ** Updates without fields *)

(** C5. For a note in the repository, [update(k)] with neither field
    hands back the note, not [None]; the note keeps its title and its
    content (and every other field but updated_at, which becomes [now]).
    The handler never makes that call: a payload with neither field is
    answered 400 and the state is not touched. *)
Theorem fieldless_update_succeeds (w : World) (k : Z) (r : ref) (n : Note)
    (now : timestamp) (user_id : string) :
  get k w = Some r → heap w !! r = Some n →
  (update k None None now w).1 = Some r ∧
  heap (update k None None now w).2 !! r =
    Some (mkNote (id n) (title n) (content n) (owner_id n) (created_at n) now) ∧
  update_note (mkNoteUpdate None None) k user_id now w =
    (Some (HTTPException HTTP_400_BAD_REQUEST "No fields to update"), w).
Proof.
  intros Hget Hn. rewrite (update_found _ _ _ _ _ _ Hget). simpl.
  by rewrite list_lookup_alter_eq, Hn.
Qed.

Lemma fieldless_update_succeeds_witness :
  let w := (create "Shopping" "Milk" "alice" 10 __init__).2 in
  (update 1 None None 12 w).1 = Some 0%nat ∧
  heap (update 1 None None 12 w).2 !! 0%nat =
    Some (mkNote 1 "Shopping" "Milk" "alice" 10 12) ∧
  update_note (mkNoteUpdate None None) 1 "alice" 12 w =
    (Some (HTTPException 400 "No fields to update"), w).
Proof.
  intros w.
  exact (fieldless_update_succeeds w 1 0%nat
           (mkNote 1 "Shopping" "Milk" "alice" 10 10) 12 "alice"
           eq_refl eq_refl).
Defined.

(** ** Timestamps *)




(** ** Deletion *)

(** C7. For a note in the repository, [delete(k)] hands back [True];
    [get(k)] on the state it leaves hands back [None]; and a second
    [delete(k)] hands back [False] and changes nothing. *)
Theorem delete_then_absent (w : World) (k : Z) (r : ref) :
  get k w = Some r →
  (delete k w).1 = true ∧
  get k (delete k w).2 = None ∧
  delete k (delete k w).2 = (false, (delete k w).2).
Proof.
  intros Hget. split_and!.
  - by eapply delete_present.
  - apply get_delete.
  - apply delete_absent, get_delete.
Qed.

Lemma delete_then_absent_witness :
  let w := (create "Shopping" "Milk" "alice" 10 __init__).2 in
  (delete 1 w).1 = true ∧
  get 1 (delete 1 w).2 = None ∧
  delete 1 (delete 1 w).2 = (false, (delete 1 w).2).
Proof.
  intros w. exact (delete_then_absent w 1 0%nat eq_refl).
Defined.

(** ** Creation *)

(** C8. [create] is total: for every title, content, owner and clock
    reading, in every state, it hands back a live note carrying the
    counter's value as id, the three strings, and the reading as both
    timestamps; [get] with that id, on the state [create] leaves, hands
    back that same note, so all six fields agree. *)
Theorem get_after_create (ti c o : string) (now : timestamp) (w : World) :
  ∃ r w' n,
    create ti c o now w = (r, w') ∧
    heap w' !! r = Some n ∧
    n = mkNote (_next_id w) ti c o now now ∧
    get (id n) w' = Some r ∧
    getattr _to_note_out r w' = Some (mkNoteOut (_next_id w) ti c o now now).
Proof.
  eexists _, _, _. split; [apply create_eq|].
  assert (heap (create ti c o now w).2 !! length (heap w) =
          Some (mkNote (_next_id w) ti c o now now)) as Hn.
  { simpl. by apply list_lookup_middle. }
  rewrite create_eq in Hn. simpl in Hn.
  split_and!; [exact Hn | done | |].
  - simpl. unfold get. simpl. apply dict_get_set_eq.
  - unfold getattr. simpl. by rewrite Hn.
Qed.

(** ** Listing *)

Lemma list_all_None w : list_all None w = dict.values (_notes w).
Proof. reflexivity. Qed.

Lemma list_all_Some o w :
  list_all (Some o) w =
  (filter (λ e, getattr owner_id e.2 w = Some o) (_notes w)).*2.
Proof.
  unfold list_all, dict.values. induction (_notes w) as [|[k r] d IH]; [done|].
  rewrite fmap_cons, !filter_cons. simpl.
  destruct (decide (getattr Note_owner_id r w = Some o)) as [Ho|Ho];
    unfold Note_owner_id in *.
  - rewrite decide_True by done. simpl. by rewrite IH.
  - rewrite decide_False by done. done.
Qed.

Lemma elem_list_all_None r w : wf w → r ∈ list_all None w ↔ ∃ k, get k w = Some r.
Proof.
  intros Hw. split.
  - intros ([k r'] & -> & Hin)%list_elem_of_fmap. exists k.
    by apply dict_elem_get; [apply Hw|].
  - intros [k Hk]. by eapply get_list_all.
Qed.

(** C9. In a well-formed repository, [list_all(owner_id=o)] hands back
    the notes stored under some identifier whose owner_id is [o], those
    and no others, each once, as many as there are entries with that
    owner; [list_all()] hands back every stored note, each once. Both are
    plain returns that leave the state alone. *)
Theorem list_all_by_owner (w : World) (o : string) :
  wf w →
  (∀ r, r ∈ list_all (Some o) w ↔
        ∃ k n, get k w = Some r ∧ heap w !! r = Some n ∧ owner_id n = o) ∧
  NoDup (list_all (Some o) w) ∧
  length (list_all (Some o) w) =
    length (filter (λ e, getattr owner_id e.2 w = Some o) (_notes w)) ∧
  (∀ r, r ∈ list_all None w ↔ ∃ k, get k w = Some r) ∧
  NoDup (list_all None w) ∧
  length (list_all None w) = length (_notes w) ∧
  (∀ now oo, (step now (ListAll oo) w).2 = w).
Proof.
  intros Hw. split_and!.
  - intros r. unfold list_all. rewrite list_elem_of_filter.
    fold (list_all None w). rewrite (elem_list_all_None _ _ Hw).
    unfold getattr, Note_owner_id. split.
    + intros [Ho [k Hk]]. exists k.
      destruct (heap w !! r) as [n|]; [|done].
      exists n. by injection Ho as <-.
    + intros (k & n & Hk & Hn & <-). rewrite Hn. split; [done|by exists k].
  - unfold list_all. apply NoDup_filter, (wf_refs _ Hw).
  - by rewrite list_all_Some, length_fmap.
  - intros r. by apply elem_list_all_None.
  - apply (wf_refs _ Hw).
  - rewrite list_all_None. unfold dict.values. apply length_fmap.
  - done.
Qed.

Lemma list_all_by_owner_witness :
  let w := run [(10, Create "Shopping" "Milk" "alice");
                (11, Create "Work" "Report" "bob");
                (12, Create "Books" "Dune" "alice");
                (13, Delete 1)] __init__ in
  list_all (Some "alice") w = [2%nat] ∧
  NoDup (list_all (Some "alice") w) ∧
  length (list_all (Some "alice") w) =
    length (filter (λ e, getattr owner_id e.2 w = Some "alice") (_notes w)).
Proof.
  intros w. split; [reflexivity|].
  assert (wf w) as Hw by (repeat apply wf_step; apply wf_init).
  pose proof (list_all_by_owner w "alice" Hw) as (_ & H1 & H2 & _).
  exact (conj H1 H2).
Defined.

(** ** Identity resolution *)

(** C10. A missing [X-User-Id] header and an empty one both resolve to
    ["anonymous"]; a non-empty one resolves to itself; [require_auth]
    passes the resolved identity on unchanged. *)
Theorem identity_resolution (s : string) :
  s ≠ EmptyString →
  get_current_user None = "anonymous" ∧
  get_current_user (Some EmptyString) = "anonymous" ∧
  get_current_user (Some s) = s ∧
  require_auth (get_current_user (Some EmptyString)) = "anonymous" ∧
  require_auth (get_current_user (Some s)) = s.
Proof.
  intros Hs. unfold require_auth, get_current_user, truthy.
  destruct (String.eqb_spec s EmptyString) as [->|_]; done.
Qed.

Lemma identity_resolution_witness :
  get_current_user (Some "alice") = "alice" ∧
  get_current_user (Some " ") = " ".
Proof.
  split.
  - apply (identity_resolution "alice"). discriminate.
  - apply (identity_resolution " "). discriminate.
Defined.

(** ** The end-to-end scenario *)

(** Create "Shopping"/"Milk" on a new repository (id 1), read it, replace
    the content, delete it, read it again. *)
Example end_to_end :
  let '(r, w1) := create "Shopping" "Milk" "alice" 10 __init__ in
  let '(u, w2) := update 1 None (Some "Milk, Eggs") 12 w1 in
  let '(d, w3) := delete 1 w2 in
  getattr _to_note_out r w1 = Some (mkNoteOut 1 "Shopping" "Milk" "alice" 10 10) ∧
  get 1 w1 = Some r ∧
  u = Some r ∧
  getattr _to_note_out r w2 =
    Some (mkNoteOut 1 "Shopping" "Milk, Eggs" "alice" 10 12) ∧
  d = true ∧
  get 1 w3 = None ∧
  (create "Again" "x" "bob" 13 w3).2.(_notes) = [(2, 1%nat)].
Proof. repeat split. Qed.

(** Identifiers across deletions: 1, 2, then 3 although 2 was deleted. *)
Example ids_skip_deleted :
  created_ids [(10, Create "a" "x" "alice"); (11, Create "b" "y" "bob");
               (12, Delete 2); (13, Create "c" "z" "alice")] __init__
  = [1; 2; 3].
Proof. reflexivity. Qed.

(** * Further properties of the repository *)

Section dict_more.
Context {V : Type}.
Implicit Types (k : Z) (v : V) (d : list (Z * V)).

Lemma dict_get_set_ne k k' v d :
  k ≠ k' → dict.get k' (dict.set k v d) = dict.get k' d.
Proof.
  intros Hne. induction d as [|[k0 v0] d IH]; simpl.
  - by destruct (Z.eqb_spec k k').
  - destruct (Z.eqb_spec k0 k) as [->|H0]; simpl.
    + by destruct (Z.eqb_spec k k').
    + by rewrite IH.
Qed.

Lemma dict_get_remove_ne k k' d :
  k ≠ k' → dict.get k' (dict.remove k d) = dict.get k' d.
Proof.
  intros Hne. unfold dict.remove. induction d as [|[k0 v0] d IH]; [done|].
  rewrite filter_cons. simpl. destruct (decide (k0 ≠ k)) as [H0|H0]; simpl.
  - by rewrite IH.
  - apply dec_stable in H0 as ->. by destruct (Z.eqb_spec k k').
Qed.

Lemma dict_get_remove_None k k' d :
  dict.get k' d = None → dict.get k' (dict.remove k d) = None.
Proof.
  rewrite !dict_get_None. unfold dict.keys. intros Hk Hin. apply Hk.
  apply list_elem_of_fmap in Hin as (e & -> & [_ He]%dict_elem_remove).
  by apply list_elem_of_fmap_2.
Qed.

Lemma dict_length_remove k v d :
  NoDup (dict.keys d) → dict.get k d = Some v →
  S (length (dict.remove k d)) = length d.
Proof.
  unfold dict.keys. induction d as [|[k0 v0] d IH]; simpl; [done|].
  intros [Hk Hd]%NoDup_cons. destruct (Z.eqb_spec k0 k) as [->|H0].
  - intros _. unfold dict.remove. rewrite filter_cons_False by (by intros H).
    fold (dict.remove k d). rewrite dict_remove_absent; [done|].
    by apply dict_get_None.
  - intros Hget. unfold dict.remove. rewrite filter_cons_True by done.
    simpl. f_equal. by apply IH.
Qed.

End dict_more.

(** ** What each method leaves alone *)

(** X1. In a well-formed repository, empty or not, [create] appends one
    entry, under the counter's value and at the address it hands back;
    every note stored before is still found under its identifier, at its
    address and with its fields, and that address is not the new one. *)
Theorem create_keeps_existing_notes (w : World) (ti c o : string)
    (now : timestamp) :
  wf w →
  _notes (create ti c o now w).2 =
    _notes w ++ [(_next_id w, (create ti c o now w).1)] ∧
  ∀ k r, get k w = Some r →
    get k (create ti c o now w).2 = Some r ∧
    heap (create ti c o now w).2 !! r = heap w !! r ∧
    (create ti c o now w).1 ≠ r.
Proof.
  intros Hw. split.
  - rewrite create_eq. simpl. apply dict_set_fresh, wf_fresh_key, Hw.
  - intros k r Hget. apply dict_get_Some_elem in Hget as Hin.
    pose proof (wf_below _ Hw _ _ Hin) as Hlt.
    pose proof (wf_ref_lt _ _ _ Hw Hin) as Hr.
    rewrite create_eq. simpl. split_and!.
    + unfold get. simpl. rewrite dict_get_set_ne by lia. exact Hget.
    + by apply lookup_app_l.
    + lia.
Qed.

Lemma create_keeps_existing_notes_witness :
  let w := (create "Shopping" "Milk" "alice" 10 __init__).2 in
  _notes (create "Work" "Report" "bob" 11 w).2 = [(1, 0%nat); (2, 1%nat)] ∧
  get 1 (create "Work" "Report" "bob" 11 w).2 = Some 0%nat ∧
  _notes (create "Shopping" "Milk" "alice" 10 __init__).2 = [(1, 0%nat)].
Proof.
  intros w.
  pose proof (create_keeps_existing_notes w "Work" "Report" "bob" 11
    (wf_create _ _ _ _ _ wf_init)) as (H1 & H2).
  pose proof (create_keeps_existing_notes __init__ "Shopping" "Milk" "alice" 10
    wf_init) as (H3 & _).
  destruct (H2 1 0%nat eq_refl) as (H4 & _).
  exact (conj H1 (conj H4 H3)).
Defined.

(** X2. In a well-formed repository a successful [update] changes the
    stored record of its identifier and nothing else: every other stored
    record, the entries of [_notes], the counter and the number of
    objects are as before. *)
Theorem update_touches_one_note (w : World) (k : Z) (r : ref) (n : Note)
    (ti c : option string) (now : timestamp) :
  wf w → get k w = Some r → heap w !! r = Some n →
  stored (update k ti c now w).2 =
    (λ e, if decide (e.1 = k)
          then (k, Some (mkNote (id n) (default (title n) ti)
                           (default (content n) c) (owner_id n)
                           (created_at n) now))
          else e) <$> stored w ∧
  _notes (update k ti c now w).2 = _notes w ∧
  _next_id (update k ti c now w).2 = _next_id w ∧
  length (heap (update k ti c now w).2) = length (heap w).
Proof.
  intros Hw Hget Hn. rewrite (update_found _ _ _ _ _ _ Hget). simpl.
  split_and!; try done.
  - apply (stored_setattr w k r n (updated ti c now) Hw Hget Hn).
  - apply length_alter.
Qed.

Lemma update_touches_one_note_witness :
  let w := run [(10, Create "Shopping" "Milk" "alice");
                (11, Create "Work" "Report" "bob")] __init__ in
  stored (update 2 (Some "Job") None 12 w).2 =
    [(1, Some (mkNote 1 "Shopping" "Milk" "alice" 10 10));
     (2, Some (mkNote 2 "Job" "Report" "bob" 11 12))].
Proof.
  intros w.
  assert (wf w) as Hw by (repeat apply wf_step; apply wf_init).
  pose proof (update_touches_one_note w 2 1%nat
    (mkNote 2 "Work" "Report" "bob" 11 11) (Some "Job") None 12
    Hw eq_refl eq_refl) as (H & _).
  exact H.
Defined.

(** X3. In a well-formed repository a successful [delete] takes away one
    entry: every other identifier is found as before, the counter does
    not move, and the object store is untouched, so whoever still holds
    the deleted note reads its fields as they were. *)
Theorem delete_removes_one_entry (w : World) (k : Z) (r : ref) :
  wf w → get k w = Some r →
  (∀ k', k' ≠ k → get k' (delete k w).2 = get k' w) ∧
  S (length (_notes (delete k w).2)) = length (_notes w) ∧
  _next_id (delete k w).2 = _next_id w ∧
  heap (delete k w).2 = heap w.
Proof.
  intros Hw Hget. rewrite delete_eq. simpl. split_and!; try done.
  - intros k' Hne. unfold get. simpl. by apply dict_get_remove_ne.
  - by apply (dict_length_remove k r); [apply Hw|].
Qed.

Lemma delete_removes_one_entry_witness :
  let w := run [(10, Create "Shopping" "Milk" "alice");
                (11, Create "Work" "Report" "bob")] __init__ in
  (∀ k', k' ≠ 1 → get k' (delete 1 w).2 = get k' w) ∧
  S (length (_notes (delete 1 w).2)) = length (_notes w) ∧
  _next_id (delete 1 w).2 = 3 ∧
  heap (delete 1 w).2 = heap w.
Proof.
  intros w.
  assert (wf w) as Hw by (repeat apply wf_step; apply wf_init).
  exact (delete_removes_one_entry w 1 0%nat Hw eq_refl).
Defined.

(** ** Identifiers over the life of a repository *)

Lemma reachable_positive w :
  reachable w → 1 ≤ _next_id w ∧ ∀ k r, (k, r) ∈ _notes w → 1 ≤ k.
Proof.
  induction 1 as [|w now c Hr [IH1 IH2]].
  - split; [done|]. intros k r H. by apply elem_of_nil in H.
  - pose proof (reachable_wf _ Hr) as Hw.
    rewrite next_id_step. split; [destruct (is_create c); lia|].
    destruct c as [ti c o|o|i|i ti c|i]; simpl; try done.
    + rewrite (dict_set_fresh _ _ _ (wf_fresh_key _ Hw)).
      intros k r [Hin|[= -> ->]%list_elem_of_singleton]%elem_of_app;
        [by eapply IH2 | done].
    + case_update i w r Hget; done.
    + intros k r [_ Hin]%dict_elem_remove. by eapply IH2.
Qed.

(** X4. In every state that a repository reaches from [__init__]
    through its methods, whatever the clock reads on the way, a stored
    note's identifier is at least 1 and below the counter, and the note
    found under an identifier carries that identifier in its [id]
    field. *)
Theorem stored_id_in_range (w : World) (k : Z) (r : ref) :
  reachable w → get k w = Some r →
  1 ≤ k ∧ k < _next_id w ∧ getattr id r w = Some k.
Proof.
  intros Hr Hin%dict_get_Some_elem.
  pose proof (reachable_wf _ Hr) as Hw. split_and!.
  - by apply (reachable_positive _ Hr) in Hin.
  - by apply (wf_below _ Hw) in Hin.
  - destruct (wf_live _ Hw _ _ Hin) as (n & Hn & Hid).
    unfold getattr. by rewrite Hn, <- Hid.
Qed.

Lemma stored_id_in_range_witness :
  let w := run [(10, Create "Shopping" "Milk" "alice");
                (11, Create "Work" "Report" "bob");
                (5, Update 2 (Some "Job") None)] __init__ in
  1 ≤ 2 ∧ 2 < _next_id w ∧ getattr id 1%nat w = Some 2.
Proof.
  intros w.
  apply (stored_id_in_range w 2 1%nat); [|reflexivity].
  apply reachable_run, reachable_init.
Defined.

Lemma heap_length_step now c w :
  length (heap (step now c w).2) =
  (length (heap w) + (if is_create c then 1 else 0))%nat.
Proof.
  destruct c as [ti c o|o|i|i ti c|i]; simpl; try lia.
  - rewrite length_app. simpl. lia.
  - case_update i w r Hget; simpl; [rewrite length_alter|]; lia.
Qed.

Lemma notes_length_step now c w :
  (length (_notes (step now c w).2) ≤
   length (_notes w) + (if is_create c then 1 else 0))%nat.
Proof.
  destruct c as [ti c o|o|i|i ti c|i]; simpl; try lia.
  - induction (_notes w) as [|[k r] d IH]; simpl; [lia|].
    destruct (Z.eqb_spec k (_next_id w)); simpl; lia.
  - case_update i w r Hget; simpl; lia.
  - unfold dict.remove. pose proof (length_filter (λ e : Z * nat, e.1 ≠ i) (_notes w)).
    lia.
Qed.

(** X5. Over any sequence of calls, from any state, the counter and the
    object store grow by exactly the number of [create] calls, whatever
    is deleted on the way, and the number of stored notes grows by at
    most that number. *)
Theorem counter_counts_creates (cs : list (timestamp * call)) (w : World) :
  _next_id (run cs w) = _next_id w + Z.of_nat (creates cs) ∧
  length (heap (run cs w)) = (length (heap w) + creates cs)%nat ∧
  (length (_notes (run cs w)) ≤ length (_notes w) + creates cs)%nat.
Proof.
  unfold creates. revert w. induction cs as [|[now c] cs IH]; intros w.
  - simpl. split_and!; lia.
  - simpl run. destruct (IH (step now c w).2) as (IH1 & IH2 & IH3).
    rewrite IH1, IH2, next_id_step, heap_length_step, filter_cons.
    pose proof (notes_length_step now c w) as Hn. simpl.
    destruct (is_create c); simpl in *; split_and!; lia.
Qed.

Lemma absent_step now c w k :
  k < _next_id w → get k w = None → get k (step now c w).2 = None.
Proof.
  intros Hlt Hk. destruct c as [ti c o|o|i|i ti c|i]; simpl; try done.
  - unfold get. simpl. rewrite dict_get_set_ne by lia. exact Hk.
  - case_update i w r Hget; done.
  - unfold get. simpl. by apply dict_get_remove_None.
Qed.

Lemma absent_run cs w k :
  k < _next_id w → get k w = None → get k (run cs w) = None.
Proof.
  revert w. induction cs as [|[now c] cs IH]; intros w Hlt Hk; [done|].
  simpl. apply IH; [|by apply absent_step].
  rewrite next_id_step. destruct (is_create c); lia.
Qed.

(** X6. An identifier below the counter that is not stored (one that was
    deleted, or that was never stored) stays unknown through every
    sequence of calls: no call brings a deleted note back, and [create]
    never hands out such an identifier again. *)
Theorem deleted_id_never_returns (cs : list (timestamp * call)) (w : World)
    (k : Z) :
  k < _next_id w → get k w = None →
  get k (run cs w) = None ∧ k ∉ created_ids cs w.
Proof.
  intros Hlt Hk. split; [by apply absent_run|].
  intros Hin. pose proof (created_ids_lower cs w) as Hall.
    rewrite Forall_forall in Hall. specialize (Hall _ Hin). simpl in Hall. lia.
Qed.

Lemma deleted_id_never_returns_witness :
  let w := (delete 1 (create "Shopping" "Milk" "alice" 10 __init__).2).2 in
  let cs := [(11, Create "Work" "Report" "bob"); (12, Update 1 (Some "x") None);
             (13, Create "Books" "Dune" "alice")] in
  get 1 (run cs w) = None ∧ 1 ∉ created_ids cs w.
Proof.
  intros w cs.
  apply (deleted_id_never_returns cs w 1); [vm_compute; reflexivity | reflexivity].
Defined.

(** ** Fields that are written once *)

Lemma same_identity_refl n : same_identity n n.
Proof. by repeat split. Qed.

Lemma same_identity_trans n1 n2 n3 :
  same_identity n1 n2 → same_identity n2 n3 → same_identity n1 n3.
Proof. unfold same_identity. intros (?&?&?) (?&?&?). split_and!; congruence. Qed.

Lemma identity_step now c w r n :
  heap w !! r = Some n →
  ∃ n', heap (step now c w).2 !! r = Some n' ∧ same_identity n n'.
Proof.
  intros Hn. destruct c as [ti c o|o|i|i ti c|i]; simpl;
    try (exists n; split; [done | apply same_identity_refl]).
  - exists n. split; [by apply lookup_app_l_Some | apply same_identity_refl].
  - case_update i w r' Hget; simpl;
      [|exists n; split; [done | apply same_identity_refl]].
    destruct (decide (r' = r)) as [->|Hne].
    + exists (updated ti c now n). split; [|by repeat split].
      by rewrite list_lookup_alter_eq, Hn.
    + exists n. split; [|apply same_identity_refl].
      by rewrite list_lookup_alter_ne.
Qed.

Lemma address_step now c w k r :
  k < _next_id w → get k w = Some r →
  get k (step now c w).2 = Some r ∨ get k (step now c w).2 = None.
Proof.
  intros Hlt Hk. destruct c as [ti c o|o|i|i ti c|i]; simpl; try by left.
  - left. unfold get. simpl. rewrite dict_get_set_ne by lia. exact Hk.
  - case_update i w r' Hget; by left.
  - unfold get. simpl. destruct (decide (i = k)) as [->|Hne].
    + right. apply dict_get_remove_eq.
    + left. by rewrite dict_get_remove_ne.
Qed.

(** X7. No sequence of calls changes the [id], [owner_id] or
    [created_at] of a note object, stored or not. In a well-formed
    repository a stored note moreover stays at its address for as long as
    it is stored: after the calls its identifier is unknown, or is found
    at the same address. *)
Theorem identity_fields_are_immutable (cs : list (timestamp * call))
    (w : World) (k : Z) (r : ref) (n : Note) :
  wf w → get k w = Some r → heap w !! r = Some n →
  (∃ n', heap (run cs w) !! r = Some n' ∧ same_identity n n') ∧
  (get k (run cs w) = Some r ∨ get k (run cs w) = None).
Proof.
  intros Hw Hget Hn.
  assert (k < _next_id w) as Hlt.
  { apply dict_get_Some_elem in Hget. by apply (wf_below _ Hw) in Hget. }
  clear Hw. split.
  - clear Hget Hlt. revert w n Hn.
    induction cs as [|[now c] cs IH]; intros w n Hn.
    + exists n. split; [done | apply same_identity_refl].
    + destruct (identity_step now c w r n Hn) as (n1 & Hn1 & Hs1).
      destruct (IH _ _ Hn1) as (n2 & Hn2 & Hs2).
      exists n2. split; [done | by eapply same_identity_trans].
  - clear Hn. revert w Hget Hlt.
    induction cs as [|[now c] cs IH]; intros w Hget Hlt; [by left|].
    simpl.
    assert (k < _next_id (step now c w).2) as Hlt'.
    { rewrite next_id_step. destruct (is_create c); lia. }
    destruct (address_step now c w k r Hlt Hget) as [H|H].
    + by apply IH.
    + right. by apply absent_run.
Qed.

Lemma identity_fields_are_immutable_witness :
  let w := (create "Shopping" "Milk" "alice" 10 __init__).2 in
  let cs := [(11, Update 1 (Some "Groceries") (Some "Eggs"));
             (12, Create "Work" "Report" "bob"); (13, Delete 2)] in
  (∃ n', heap (run cs w) !! 0%nat = Some n' ∧
         same_identity (mkNote 1 "Shopping" "Milk" "alice" 10 10) n') ∧
  (get 1 (run cs w) = Some 0%nat ∨ get 1 (run cs w) = None).
Proof.
  intros w cs.
  exact (identity_fields_are_immutable cs w 1 0%nat
           (mkNote 1 "Shopping" "Milk" "alice" 10 10)
           (wf_create _ _ _ _ _ wf_init) eq_refl eq_refl).
Defined.

(** ** The order of a listing *)

Lemma StronglySorted_lt_snoc (l : list Z) x :
  StronglySorted Z.lt l → Forall (λ y, y < x) l → StronglySorted Z.lt (l ++ [x]).
Proof.
  induction 1 as [|y l Hl IH Hy]; intros Hall; simpl.
  - repeat constructor.
  - apply Forall_cons in Hall as [Hyx Hall]. constructor; [by apply IH|].
    apply Forall_app. split; [done | by repeat constructor].
Qed.

Lemma StronglySorted_lt_sublist (l1 l2 : list Z) :
  l1 `sublist_of` l2 → StronglySorted Z.lt l2 → StronglySorted Z.lt l1.
Proof.
  induction 1 as [|x l1 l2 Hsub IH|x l1 l2 Hsub IH]; intros Hs; [done|..].
  - apply StronglySorted_inv in Hs as [Hs Hx]. constructor; [by apply IH|].
    rewrite Forall_forall in Hx |- *. intros y Hy. apply Hx.
    by eapply elem_of_sublist.
  - apply StronglySorted_inv in Hs as [Hs _]. by apply IH.
Qed.

Lemma ordered_step now c w : wf w → ordered w → ordered (step now c w).2.
Proof.
  unfold ordered, dict.keys. intros Hw Ho.
  destruct c as [ti c o|o|i|i ti c|i]; simpl; try done.
  - rewrite (dict_set_fresh _ _ _ (wf_fresh_key _ Hw)), fmap_app. simpl.
    apply StronglySorted_lt_snoc; [done|]. apply Forall_forall.
    intros k ([k' r] & -> & Hin)%list_elem_of_fmap.
    by apply (wf_below _ Hw) in Hin.
  - case_update i w r Hget; done.
  - eapply StronglySorted_lt_sublist; [|exact Ho].
    apply fmap_sublist, sublist_filter.
Qed.

Lemma reachable_ordered w : reachable w → ordered w.
Proof.
  induction 1 as [|w now c Hr IH]; [constructor|].
  apply ordered_step; [by apply reachable_wf | done].
Qed.

Lemma entries_ids w (l : list (Z * nat)) :
  wf w → l ⊆ _notes w → omap (λ n, getattr id n w) l.*2 = l.*1.
Proof.
  intros Hw. induction l as [|[k r] l IH]; intros Hsub; [done|].
  simpl. destruct (wf_live _ Hw k r) as (n & Hn & Hid).
  { apply Hsub. left. }
  unfold getattr at 1. rewrite Hn. simpl. rewrite Hid. f_equal.
  apply IH. intros e He. apply Hsub. by right.
Qed.

Lemma listed_ids_keys w o :
  wf w →
  ∃ l, l `sublist_of` _notes w ∧ list_all o w = l.*2 ∧ listed_ids o w = l.*1.
Proof.
  intros Hw. unfold listed_ids. destruct o as [o|].
  - exists (filter (λ e, getattr owner_id e.2 w = Some o) (_notes w)).
    split; [apply sublist_filter|]. rewrite list_all_Some. split; [done|].
    apply (entries_ids w _ Hw). by intros e [_ He]%list_elem_of_filter.
  - exists (_notes w). split; [done|]. rewrite list_all_None.
    split; [done|]. by apply (entries_ids w _ Hw).
Qed.

Lemma listed_ids_sorted w o : reachable w → StronglySorted Z.lt (listed_ids o w).
Proof.
  intros Hr.
  destruct (listed_ids_keys w o (reachable_wf _ Hr)) as (l & Hl & _ & ->).
  eapply StronglySorted_lt_sublist; [|exact (reachable_ordered _ Hr)].
  by apply fmap_sublist.
Qed.

Lemma listed_ids_length w o : wf w → length (listed_ids o w) = length (list_all o w).
Proof.
  intros Hw. destruct (listed_ids_keys w o Hw) as (l & _ & -> & ->).
  by rewrite !length_fmap.
Qed.

(** X8. In every state that a repository reaches from [__init__]
    through its methods, whatever the clock reads on the way, [list_all],
    filtered by owner or not, hands the notes back in strictly increasing
    order of their [id], that is in the order they were created; the
    filtered list is the unfiltered one with the other owners' notes left
    out. *)
Theorem list_all_in_creation_order (w : World) (o : option string) :
  reachable w →
  StronglySorted Z.lt (listed_ids o w) ∧
  length (listed_ids o w) = length (list_all o w) ∧
  list_all o w `sublist_of` list_all None w.
Proof.
  intros Hr. split_and!.
  - by apply listed_ids_sorted.
  - by apply listed_ids_length, reachable_wf.
  - destruct o as [o|]; [|done]. apply sublist_filter.
Qed.

Lemma list_all_in_creation_order_witness :
  let w := run [(10, Create "Shopping" "Milk" "alice");
                (11, Create "Work" "Report" "bob");
                (12, Create "Books" "Dune" "alice");
                (7, Delete 1);
                (3, Create "Films" "Heat" "alice")] __init__ in
  listed_ids (Some "alice") w = [3; 4] ∧
  StronglySorted Z.lt (listed_ids (Some "alice") w) ∧
  length (listed_ids (Some "alice") w) = length (list_all (Some "alice") w).
Proof.
  intros w. split; [reflexivity|].
  assert (reachable w) as Hr by apply reachable_run, reachable_init.
  pose proof (list_all_in_creation_order w (Some "alice") Hr) as (H1 & H2 & _).
  exact (conj H1 H2).
Defined.

(** * Properties of the handlers *)

Lemma create_note_eq p u now w :
  create_note p u now w =
  (Some (Ok HTTP_201_CREATED
           (mkNoteOut (_next_id w) (new_title p) (new_content p) u now now)),
   (create (new_title p) (new_content p) u now w).2).
Proof.
  unfold create_note. rewrite create_eq. unfold getattr. simpl.
  by rewrite list_lookup_middle.
Qed.

Lemma create_note_state p u now w :
  (create_note p u now w).2 = (create (new_title p) (new_content p) u now w).2.
Proof. by rewrite create_note_eq. Qed.

Lemma get_note_found k u w r n :
  get k w = Some r → heap w !! r = Some n →
  get_note k u w = Some (Ok HTTP_200_OK (_to_note_out n)).
Proof. unfold get_note, getattr. by intros -> ->. Qed.

Lemma get_note_absent k u w :
  get k w = None →
  get_note k u w = Some (HTTPException HTTP_404_NOT_FOUND "Note not found").
Proof. unfold get_note. by intros ->. Qed.

Lemma delete_note_absent k u w :
  get k w = None →
  delete_note k u w = (Raises HTTP_404_NOT_FOUND "Note not found", w).
Proof. intros Hk. unfold delete_note. by rewrite (delete_absent _ _ Hk). Qed.

Lemma delete_note_found k u w r :
  get k w = Some r →
  delete_note k u w = (Returns HTTP_204_NO_CONTENT (), (delete k w).2).
Proof.
  intros Hk. unfold delete_note. rewrite delete_eq, Hk. reflexivity.
Qed.

(** X9. [create_note] always answers 201, with a body made of the
    counter's value, the payload's title and content, the caller as owner
    and the clock reading as both timestamps. Whoever asks next, the same
    caller or another, [get_note] with the body's id answers 200 with
    that very body, and [delete_note] with it answers 204: the handlers
    do not compare the caller with the owner. *)
Theorem create_note_then_get_note (p : NoteCreate) (u v : string)
    (now : timestamp) (w : World) :
  ∃ body w',
    create_note p u now w = (Some (Ok HTTP_201_CREATED body), w') ∧
    body = mkNoteOut (_next_id w) (new_title p) (new_content p) u now now ∧
    get_note (out_id body) v w' = Some (Ok HTTP_200_OK body) ∧
    (delete_note (out_id body) v w').1 = Returns HTTP_204_NO_CONTENT ().
Proof.
  eexists _, _. split; [apply create_note_eq|]. split; [done|].
  pose proof (get_create (new_title p) (new_content p) u now w) as Hget.
  simpl out_id. split.
  - apply (get_note_found _ v _ _
             (mkNote (_next_id w) (new_title p) (new_content p) u now now) Hget).
    rewrite create_eq. simpl. by apply list_lookup_middle.
  - by rewrite (delete_note_found _ _ _ _ Hget).
Qed.

(** X10. In a well-formed repository [get_note] answers 404 "Note not
    found" for an identifier that is not stored and 200 for one that is,
    with the stored note's fields as body and the asked identifier as the
    body's id; the caller's identity plays no part. *)
Theorem get_note_found_or_404 (w : World) (k : Z) (u : string) :
  wf w →
  (get k w = None →
   get_note k u w = Some (HTTPException HTTP_404_NOT_FOUND "Note not found")) ∧
  (∀ r, get k w = Some r →
     ∃ n, heap w !! r = Some n ∧ id n = k ∧
          get_note k u w = Some (Ok HTTP_200_OK (_to_note_out n))).
Proof.
  intros Hw. split; [apply get_note_absent|].
  intros r Hget. apply dict_get_Some_elem in Hget as Hin.
  destruct (wf_live _ Hw _ _ Hin) as (n & Hn & Hid).
  exists n. split_and!; [done..|]. by apply (get_note_found _ _ _ r).
Qed.

Lemma get_note_found_or_404_witness :
  let w := (create "Shopping" "Milk" "alice" 10 __init__).2 in
  get_note 7 "bob" w = Some (HTTPException 404 "Note not found") ∧
  ∃ n, heap w !! 0%nat = Some n ∧ id n = 1 ∧
       get_note 1 "bob" w = Some (Ok 200 (_to_note_out n)).
Proof.
  intros w.
  pose proof (get_note_found_or_404 w 7 "bob" (wf_create _ _ _ _ _ wf_init))
    as [H7 _].
  pose proof (get_note_found_or_404 w 1 "bob" (wf_create _ _ _ _ _ wf_init))
    as [_ H1].
  exact (conj (H7 eq_refl) (H1 0%nat eq_refl)).
Defined.

(** X11. [update_note] checks the payload before it looks the note up: a
    payload with neither field is answered 400 whether or not the note
    exists; with a field and an unknown identifier the answer is 404; in
    both cases the state is untouched. With a field and a stored note the
    answer is 200 and the body shows the fields given, the other fields
    as stored, and the clock reading as updated_at. *)
Theorem update_note_cases (p : NoteUpdate) (k : Z) (u : string)
    (now : timestamp) (w : World) :
  (payload_title p = None → payload_content p = None →
   update_note p k u now w =
     (Some (HTTPException HTTP_400_BAD_REQUEST "No fields to update"), w)) ∧
  (¬ (payload_title p = None ∧ payload_content p = None) → get k w = None →
   update_note p k u now w =
     (Some (HTTPException HTTP_404_NOT_FOUND "Note not found"), w)) ∧
  (¬ (payload_title p = None ∧ payload_content p = None) →
   ∀ r n, get k w = Some r → heap w !! r = Some n →
   update_note p k u now w =
     (Some (Ok HTTP_200_OK
              (mkNoteOut (id n) (default (title n) (payload_title p))
                 (default (content n) (payload_content p)) (owner_id n)
                 (created_at n) now)),
      (update k (payload_title p) (payload_content p) now w).2)).
Proof.
  unfold update_note. split_and!.
  - intros Ht Hc. by rewrite bool_decide_eq_true_2.
  - intros Hp Hk. rewrite bool_decide_eq_false_2 by done.
    by rewrite (update_absent _ _ _ _ _ Hk).
  - intros Hp r n Hk Hn. rewrite bool_decide_eq_false_2 by done.
    rewrite (update_found _ _ _ _ _ _ Hk). unfold getattr. simpl.
    by rewrite list_lookup_alter_eq, Hn.
Qed.

(** X12. For a stored note, [delete_note] answers 204 and leaves the
    state of [delete]; after it [get_note] and [delete_note] with the
    same identifier, from any caller, answer 404, and the second
    [delete_note] changes nothing. *)
Theorem delete_note_then_404 (w : World) (k : Z) (r : ref) (u v : string) :
  get k w = Some r →
  delete_note k u w = (Returns HTTP_204_NO_CONTENT (), (delete k w).2) ∧
  get_note k v (delete k w).2 =
    Some (HTTPException HTTP_404_NOT_FOUND "Note not found") ∧
  delete_note k v (delete k w).2 =
    (Raises HTTP_404_NOT_FOUND "Note not found", (delete k w).2).
Proof.
  intros Hk. split_and!.
  - by apply (delete_note_found _ _ _ r).
  - apply get_note_absent, get_delete.
  - apply delete_note_absent, get_delete.
Qed.

Lemma delete_note_then_404_witness :
  let w := (create "Shopping" "Milk" "alice" 10 __init__).2 in
  delete_note 1 "bob" w = (Returns 204 (), (delete 1 w).2) ∧
  get_note 1 "alice" (delete 1 w).2 =
    Some (HTTPException 404 "Note not found") ∧
  delete_note 1 "alice" (delete 1 w).2 =
    (Raises 404 "Note not found", (delete 1 w).2).
Proof.
  intros w. exact (delete_note_then_404 w 1 0%nat "bob" "alice" eq_refl).
Defined.

Lemma update_note_cases_witness :
  let w := (create "Shopping" "Milk" "alice" 10 __init__).2 in
  update_note (mkNoteUpdate None None) 7 "bob" 12 w =
    (Some (HTTPException 400 "No fields to update"), w) ∧
  update_note (mkNoteUpdate (Some "Groceries") None) 7 "bob" 12 w =
    (Some (HTTPException 404 "Note not found"), w) ∧
  (update_note (mkNoteUpdate (Some "Groceries") None) 1 "bob" 12 w).1 =
    Some (Ok 200 (mkNoteOut 1 "Groceries" "Milk" "alice" 10 12)).
Proof.
  intros w. split_and!.
  - by apply (update_note_cases (mkNoteUpdate None None) 7 "bob" 12 w).
  - apply (update_note_cases (mkNoteUpdate (Some "Groceries") None) 7 "bob" 12 w);
      [by intros [? _] | reflexivity].
  - pose proof (update_note_cases (mkNoteUpdate (Some "Groceries") None)
                  1 "bob" 12 w) as (_ & _ & H).
    rewrite (H ltac:(by intros [? _]) 0%nat
               (mkNote 1 "Shopping" "Milk" "alice" 10 10) eq_refl eq_refl).
    reflexivity.
Defined.

(** ** Listings *)

Lemma mapM_omap {A B} (f : A → option B) (l : list A) :
  Forall (λ x, is_Some (f x)) l → mapM f l = Some (omap f l).
Proof.
  induction 1 as [|x l [y Hy] _ IH]; [done|].
  simpl. rewrite Hy. simpl. rewrite IH. reflexivity.
Qed.

Lemma omap_ext_in {A B} (f g : A → option B) (l : list A) :
  (∀ x, x ∈ l → f x = g x) → omap f l = omap g l.
Proof.
  induction l as [|x l IH]; intros H; [done|].
  assert (omap f l = omap g l) as Hl.
  { apply IH. intros y Hy. apply H. by right. }
  simpl. rewrite (H x) by left. destruct (g x); simpl; [f_equal|]; exact Hl.
Qed.

Lemma filter_ext_in {A} (P Q : A → Prop) `{!∀ x, Decision (P x)}
    `{!∀ x, Decision (Q x)} (l : list A) :
  (∀ x, x ∈ l → P x ↔ Q x) → filter P l = filter Q l.
Proof.
  induction l as [|x l IH]; intros Hext; [done|]. rewrite !filter_cons.
  rewrite IH by (intros y Hy; apply Hext; by right).
  destruct (decide (P x)) as [HP|HP], (decide (Q x)) as [HQ|HQ]; try done.
  - exfalso. apply HQ, Hext; [left | done].
  - exfalso. apply HP, Hext; [left | done].
Qed.

Lemma list_all_live u w r :
  r ∈ list_all (Some u) w → ∃ n, heap w !! r = Some n ∧ owner_id n = u.
Proof.
  intros [Ho _]%list_elem_of_filter. unfold getattr, Note_owner_id in Ho.
  destruct (heap w !! r) as [n|]; [|done]. exists n. by injection Ho as <-.
Qed.

Lemma list_notes_eq u w :
  list_notes u w = Some (Returns HTTP_200_OK (listed_notes (Some u) w)).
Proof.
  unfold list_notes, listed_notes. rewrite mapM_omap; [done|].
  apply Forall_forall. intros r (n & Hn & _)%list_all_live.
  unfold getattr. rewrite Hn. by eexists.
Qed.

Lemma listed_notes_ids o w : out_id <$> listed_notes o w = listed_ids o w.
Proof.
  unfold listed_notes, listed_ids, getattr.
  induction (list_all o w) as [|r l IH]; [done|]. simpl.
  destruct (heap w !! r) as [n|]; simpl; [f_equal|]; exact IH.
Qed.

(** X13. In any state [list_notes] answers 200 with one body per note
    that [list_all] selects for the caller, and every body has the caller
    as owner: the listing never shows another owner's note. *)
Theorem list_notes_only_own (u : string) (w : World) :
  list_notes u w = Some (Returns HTTP_200_OK (listed_notes (Some u) w)) ∧
  Forall (λ b, out_owner_id b = u) (listed_notes (Some u) w) ∧
  length (listed_notes (Some u) w) = length (list_all (Some u) w).
Proof.
  split_and!.
  - apply list_notes_eq.
  - apply Forall_forall. intros b (r & Hr & Hb)%list_elem_of_omap.
    apply list_all_live in Hr as (n & Hn & Ho).
    unfold getattr in Hb. rewrite Hn in Hb. by injection Hb as <-.
  - pose proof (list_notes_eq u w) as Heq. unfold list_notes in Heq.
    destruct (mapM _ _) as [l|] eqn:Hl; [|done].
    injection Heq as <-. symmetry. by eapply length_mapM.
Qed.

(** X14. In every state that a repository reaches from [__init__]
    through its methods, whatever the clock reads on the way, the bodies
    that [list_notes] answers with are those of the stored notes owned by
    the caller, all of them and no others, by strictly increasing id, so
    none twice. *)
Theorem list_notes_exact (w : World) (u : string) :
  reachable w →
  list_notes u w = Some (Returns HTTP_200_OK (listed_notes (Some u) w)) ∧
  (∀ b, b ∈ listed_notes (Some u) w ↔
        ∃ k r n, get k w = Some r ∧ heap w !! r = Some n ∧
                 owner_id n = u ∧ b = _to_note_out n) ∧
  StronglySorted Z.lt (out_id <$> listed_notes (Some u) w).
Proof.
  intros Hr. pose proof (reachable_wf _ Hr) as Hw. split_and!.
  - apply list_notes_eq.
  - intros b. unfold listed_notes. rewrite list_elem_of_omap. split.
    + intros (r & Hin & Hb). pose proof Hin as [_ Hv]%list_elem_of_filter.
      apply (elem_list_all_None _ _ Hw) in Hv as [k Hk].
      apply list_all_live in Hin as (n & Hn & Ho).
      exists k, r, n. unfold getattr in Hb. rewrite Hn in Hb.
      by injection Hb as <-.
    + intros (k & r & n & Hk & Hn & Ho & ->). exists r. split.
      * apply list_elem_of_filter. split.
        -- unfold getattr, Note_owner_id. rewrite Hn. simpl. by rewrite Ho.
        -- by apply (get_list_all k).
      * unfold getattr. by rewrite Hn.
  - rewrite listed_notes_ids. by apply listed_ids_sorted.
Qed.

Lemma list_notes_exact_witness :
  let w := run [(10, Create "Shopping" "Milk" "alice");
                (11, Create "Work" "Report" "bob");
                (12, Create "Books" "Dune" "alice");
                (4, Update 1 None (Some "Milk, Eggs"))] __init__ in
  list_notes "alice" w =
    Some (Returns 200 [mkNoteOut 1 "Shopping" "Milk, Eggs" "alice" 10 4;
                       mkNoteOut 3 "Books" "Dune" "alice" 12 12]) ∧
  StronglySorted Z.lt (out_id <$> listed_notes (Some "alice") w).
Proof.
  intros w.
  assert (reachable w) as Hr by apply reachable_run, reachable_init.
  pose proof (list_notes_exact w "alice" Hr) as (H1 & _ & H2).
  exact (conj H1 H2).
Defined.

Lemma getattr_create {A} (f : Note → A) ti c o now w r :
  (r < length (heap w))%nat →
  getattr f r (create ti c o now w).2 = getattr f r w.
Proof.
  intros Hr. rewrite create_eq. unfold getattr. simpl.
  by rewrite lookup_app_l.
Qed.

Lemma list_all_create o' ti c o now w :
  wf w →
  list_all (Some o') (create ti c o now w).2 =
  list_all (Some o') w ++ (if decide (o = o') then [length (heap w)] else []).
Proof.
  intros Hw. unfold list_all.
  assert (_notes (create ti c o now w).2 =
          _notes w ++ [(_next_id w, length (heap w))]) as ->.
  { rewrite create_eq. apply dict_set_fresh, wf_fresh_key, Hw. }
  unfold dict.values. rewrite fmap_app, filter_app. f_equal.
  - apply filter_ext_in.
    intros r ([k r'] & -> & Hin)%list_elem_of_fmap.
    by rewrite getattr_create by (by eapply wf_ref_lt).
  - change ([(_next_id w, length (heap w))].*2) with [length (heap w)].
    rewrite filter_cons, filter_nil.
    assert (getattr Note_owner_id (length (heap w)) (create ti c o now w).2
            = Some o) as Ho.
    { rewrite create_eq. unfold getattr. simpl. by rewrite list_lookup_middle. }
    destruct (decide (o = o')) as [->|Hne].
    + by rewrite decide_True.
    + rewrite decide_False; [done|]. rewrite Ho. by intros [= ?].
Qed.

Lemma listed_notes_create o' ti c o now w :
  wf w →
  listed_notes (Some o') (create ti c o now w).2 =
  listed_notes (Some o') w ++
  (if decide (o = o') then [mkNoteOut (_next_id w) ti c o now now] else []).
Proof.
  intros Hw. unfold listed_notes. rewrite (list_all_create _ _ _ _ _ _ Hw).
  rewrite omap_app. f_equal.
  - apply omap_ext_in. intros r [_ Hv]%list_elem_of_filter.
    apply list_elem_of_fmap in Hv as ([k r'] & -> & Hin).
    apply getattr_create. by eapply wf_ref_lt.
  - destruct (decide (o = o')); [|done].
    rewrite create_eq. unfold getattr. simpl. by rewrite list_lookup_middle.
Qed.

(** X15. In a well-formed repository a note that one caller creates goes
    to the end of that caller's listing and leaves every other caller's
    listing as it was. *)
Theorem list_notes_after_create_note (p : NoteCreate) (u v : string)
    (now : timestamp) (w : World) :
  wf w → u ≠ v →
  list_notes v (create_note p u now w).2 = list_notes v w ∧
  list_notes u (create_note p u now w).2 =
    Some (Returns HTTP_200_OK
            (listed_notes (Some u) w ++
             [mkNoteOut (_next_id w) (new_title p) (new_content p) u now now])).
Proof.
  intros Hw Hne. rewrite create_note_state, !list_notes_eq.
  rewrite !(listed_notes_create _ _ _ _ _ _ Hw).
  rewrite decide_False by done. rewrite decide_True by done.
  by rewrite app_nil_r.
Qed.

Lemma list_notes_after_create_note_witness :
  let w := (create "Shopping" "Milk" "alice" 10 __init__).2 in
  let w' := (create_note (mkNoteCreate "Work" "Report") "bob" 11 w).2 in
  list_notes "alice" w' = list_notes "alice" w ∧
  list_notes "bob" w' =
    Some (Returns 200 [mkNoteOut 2 "Work" "Report" "bob" 11 11]).
Proof.
  intros w w'.
  exact (list_notes_after_create_note (mkNoteCreate "Work" "Report")
           "bob" "alice" 11 w (wf_create _ _ _ _ _ wf_init)
           ltac:(discriminate)).
Defined.

(** ** Identity and handlers together *)

Lemma injected_user_id_anonymous :
  injected_user_id None = "anonymous" ∧
  injected_user_id (Some EmptyString) = "anonymous" ∧
  injected_user_id (Some "anonymous") = "anonymous".
Proof. by repeat split. Qed.

(** X16. All callers without an identity are one owner. In a well-formed
    repository a note created by a request without [X-User-Id] header is
    owned by "anonymous" and closes the listing of a request without the
    header, of one with an empty header, and of one whose header reads
    "anonymous". *)
Theorem callers_without_identity_share_notes (p : NoteCreate)
    (now : timestamp) (w : World) (h : option string) :
  wf w → h = None ∨ h = Some EmptyString ∨ h = Some "anonymous" →
  list_notes (injected_user_id h)
    (create_note p (injected_user_id None) now w).2 =
  Some (Returns HTTP_200_OK
          (listed_notes (Some "anonymous") w ++
           [mkNoteOut (_next_id w) (new_title p) (new_content p)
              "anonymous" now now])).
Proof.
  intros Hw Hh.
  assert (injected_user_id h = "anonymous") as ->
    by (destruct Hh as [->|[->| ->]]; reflexivity).
  change (injected_user_id None) with "anonymous".
  rewrite create_note_state, list_notes_eq.
  rewrite (listed_notes_create _ _ _ _ _ _ Hw). by rewrite decide_True.
Qed.

Lemma callers_without_identity_share_notes_witness :
  list_notes (injected_user_id (Some "anonymous"))
    (create_note (mkNoteCreate "Shopping" "Milk") (injected_user_id None) 10
       __init__).2 =
  Some (Returns 200 [mkNoteOut 1 "Shopping" "Milk" "anonymous" 10 10]).
Proof.
  exact (callers_without_identity_share_notes (mkNoteCreate "Shopping" "Milk")
           10 __init__ (Some "anonymous") wf_init
           (or_intror (or_intror eq_refl))).
Defined.

(** ** Handlers and the invariant *)

(** X17. The handlers keep a repository well formed, and on a well-formed
    repository each of them produces a response: none meets an address
    without an object. *)
Theorem handlers_keep_well_formed (w : World) (pc : NoteCreate)
    (pu : NoteUpdate) (k : Z) (u : string) (now : timestamp) :
  wf w →
  (is_Some (create_note pc u now w).1 ∧ wf (create_note pc u now w).2) ∧
  is_Some (list_notes u w) ∧
  is_Some (get_note k u w) ∧
  (is_Some (update_note pu k u now w).1 ∧ wf (update_note pu k u now w).2) ∧
  wf (delete_note k u w).2.
Proof.
  intros Hw. split_and!.
  - rewrite create_note_eq. by eexists.
  - rewrite create_note_state. by apply wf_create.
  - rewrite list_notes_eq. by eexists.
  - destruct (get k w) as [r|] eqn:Hk.
    + apply dict_get_Some_elem in Hk as Hin.
      destruct (wf_live _ Hw _ _ Hin) as (n & Hn & _).
      rewrite (get_note_found _ _ _ _ _ Hk Hn). by eexists.
    + rewrite (get_note_absent _ _ _ Hk). by eexists.
  - unfold update_note. case_bool_decide; [by eexists|].
    destruct (get k w) as [r|] eqn:Hk.
    + apply dict_get_Some_elem in Hk as Hin.
      destruct (wf_live _ Hw _ _ Hin) as (n & Hn & _).
      rewrite (update_found _ _ _ _ _ _ Hk). unfold getattr. simpl.
      rewrite list_lookup_alter_eq, Hn. by eexists.
    + rewrite (update_absent _ _ _ _ _ Hk). by eexists.
  - unfold update_note. case_bool_decide; [done|].
    pose proof (wf_update k (payload_title pu) (payload_content pu) now w Hw).
    by destruct (update k _ _ now w) as [[r|] w'].
  - unfold delete_note. pose proof (wf_delete k w Hw).
    by destruct (delete k w) as [[|] w'].
Qed.

Lemma handlers_keep_well_formed_witness :
  let w := (create "Shopping" "Milk" "alice" 10 __init__).2 in
  is_Some (get_note 1 "bob" w) ∧
  wf (delete_note 1 "bob" w).2.
Proof.
  intros w.
  pose proof (handlers_keep_well_formed w (mkNoteCreate "Work" "Report")
    (mkNoteUpdate None (Some "Eggs")) 1 "bob" 11
    (wf_create _ _ _ _ _ wf_init)) as (_ & _ & H1 & _ & H2).
  exact (conj H1 H2).
Defined.

(** * Listings across updates and deletions *)

Lemma filter_sublist_mono {A} (P : A → Prop) `{!∀ x, Decision (P x)}
    (l1 l2 : list A) :
  l1 `sublist_of` l2 → filter P l1 `sublist_of` filter P l2.
Proof.
  induction 1 as [|x l1 l2 Hsub IH|x l1 l2 Hsub IH]; [done|..];
    rewrite ?filter_cons; destruct (decide (P x)); try done.
  - by constructor.
  - by constructor.
Qed.

Lemma values_remove w k r r' :
  wf w → get k w = Some r →
  r' ∈ dict.values (dict.remove k (_notes w)) ↔
  r' ∈ dict.values (_notes w) ∧ r' ≠ r.
Proof.
  intros Hw Hget. apply dict_get_Some_elem in Hget as Hin.
  unfold dict.values. rewrite !list_elem_of_fmap. split.
  - intros ([k' r''] & -> & [Hne Hin']%dict_elem_remove). simpl in *. split.
    + by exists (k', r'').
    + intros ->. apply Hne.
      by apply (dict_values_inj _ _ _ _ (wf_refs _ Hw) Hin' Hin).
  - intros [([k' r''] & -> & Hin') Hne]. simpl in *.
    exists (k', r''). split; [done|]. apply dict_elem_remove. split; [|done].
    simpl. intros ->. apply Hne.
    pose proof (dict_elem_get _ _ _ (wf_keys _ Hw) Hin') as Hget'.
    unfold get in Hget. congruence.
Qed.

(** X18. [update] never changes what [list_all] hands back, for any
    owner filter and in any state: the same notes at the same places. A
    note cannot change owner or place in the listing by being edited. *)
Theorem update_keeps_listings (w : World) (k : Z) (ti c : option string)
    (now : timestamp) (o : option string) :
  list_all o (update k ti c now w).2 = list_all o w.
Proof.
  case_update k w r Hget; [|done].
  unfold list_all. simpl. destruct o as [o|]; [|done].
  apply filter_ext_in. intros r' _. unfold getattr. simpl.
  rewrite list_lookup_alter. case_decide; [subst|done].
  by destruct (heap w !! r').
Qed.

(** X19. In a well-formed repository, after a successful [delete] the
    listings, for any owner filter, are the ones before with the deleted
    note left out: every other note is still listed, in the same
    order. *)
Theorem delete_drops_one_from_listings (w : World) (k : Z) (r : ref)
    (o : option string) :
  wf w → get k w = Some r →
  (∀ r', r' ∈ list_all o (delete k w).2 ↔ r' ∈ list_all o w ∧ r' ≠ r) ∧
  list_all o (delete k w).2 `sublist_of` list_all o w.
Proof.
  intros Hw Hget. rewrite delete_eq. unfold list_all. simpl. split.
  - intros r'. destruct o as [o|].
    + rewrite !list_elem_of_filter, (values_remove w k r r' Hw Hget).
      unfold getattr. simpl. tauto.
    + apply (values_remove w k r r' Hw Hget).
  - assert (dict.values (dict.remove k (_notes w))
              `sublist_of` dict.values (_notes w)) as Hsub
      by apply fmap_sublist, sublist_filter.
    destruct o as [o|]; [|done].
    unfold getattr. simpl. by apply filter_sublist_mono.
Qed.

Lemma delete_drops_one_from_listings_witness :
  let w := run [(10, Create "Shopping" "Milk" "alice");
                (11, Create "Work" "Report" "bob");
                (12, Create "Books" "Dune" "alice")] __init__ in
  list_all (Some "alice") (delete 1 w).2 = [2%nat] ∧
  (∀ r', r' ∈ list_all (Some "alice") (delete 1 w).2 ↔
         r' ∈ list_all (Some "alice") w ∧ r' ≠ 0%nat).
Proof.
  intros w. split; [reflexivity|].
  assert (wf w) as Hw by (repeat apply wf_step; apply wf_init).
  pose proof (delete_drops_one_from_listings w 1 0%nat (Some "alice")
                Hw eq_refl) as [H _].
  exact H.
Defined.
